(* Shallow embedding of the cxx bridge of tikv-client-cpp (src/src/lib.rs)
   and of the transaction engine it delegates to. *)

From Stdlib Require Import List ZArith Lia String Bool Sorting.Sorted.
From Stdlib Require Import Strings.Byte.
Import ListNotations.
Open Scope Z_scope.

(* ------------------------------------------------------------------ *)
(** * Rust effects: panics and [anyhow::Result] *)

(** A call either returns or panics ([panic!], [unimplemented!],
    [expect] on a failed conversion). *)
Inductive run (A : Type) : Type :=
| Ret (a : A)
| Panic (msg : string).
Arguments Ret {A} a.
Arguments Panic {A} msg.

Definition run_bind {A B} (m : run A) (k : A -> run B) : run B :=
  match m with
  | Ret a => k a
  | Panic s => Panic s
  end.

Notation "x <-! m ;; k" := (run_bind m (fun x => k))
  (at level 61, m at next level, right associativity).

(** Error kinds carried in the [Err] side of [Result]. *)
Inductive error : Type :=
| BackendError
| InvalidState.

Inductive result (A : Type) : Type :=
| Ok (a : A)
| Err (e : error).
Arguments Ok {A} a.
Arguments Err {A} e.

(* ------------------------------------------------------------------ *)
(** * Machine integers *)

Definition two64 : Z := 2 ^ 64.
Definition two63 : Z := 2 ^ 63.

Definition is_u64 (x : Z) : Prop := 0 <= x < two64.
Definition is_u32 (x : Z) : Prop := 0 <= x < 2 ^ 32.

(** [x as i64] for a u64 [x]: reinterpretation in two's complement. *)
Definition u64_as_i64 (x : Z) : Z :=
  if x <? two63 then x else x - two64.

(** Wrap-around of an i64 result (release-mode [<<] and [+]). *)
Definition wrap_i64 (x : Z) : Z :=
  let m := x mod two64 in if m <? two63 then m else m - two64.

(** [i64::try_into::<u64>()] followed by [expect(msg)]. *)
Definition i64_to_u64_expect (msg : string) (x : Z) : run Z :=
  if x <? 0 then Panic msg else Ret x.

(* ------------------------------------------------------------------ *)
(** * Bytes and keys *)

(** [CxxString::as_bytes().to_owned()], [Vec<u8>]. *)
Definition bytes := list byte.

Fixpoint bytes_cmp (a b : bytes) : comparison :=
  match a, b with
  | [], [] => Eq
  | [], _ :: _ => Lt
  | _ :: _, [] => Gt
  | x :: a', y :: b' =>
      match N.compare (Byte.to_N x) (Byte.to_N y) with
      | Eq => bytes_cmp a' b'
      | c => c
      end
  end.

Definition bytes_eqb (a b : bytes) : bool :=
  match bytes_cmp a b with Eq => true | _ => false end.

Definition bytes_ltb (a b : bytes) : bool :=
  match bytes_cmp a b with Lt => true | _ => false end.

Definition bytes_lt (a b : bytes) : Prop := bytes_cmp a b = Lt.

(** [CxxString::is_empty]. *)
Definition cxx_is_empty (s : bytes) : bool :=
  match s with [] => true | _ => false end.

(* ------------------------------------------------------------------ *)
(** * Timestamps *)

(** [tikv_client::Timestamp] (the PD protobuf message) with the
    conversions of the crate's [TimestampExt]. *)
Record Timestamp : Type := mkTimestamp {
  physical : Z;      (* i64 *)
  logical : Z;       (* i64 *)
  suffix_bits : Z }. (* u32 *)

Definition PHYSICAL_SHIFT_BITS : Z := 18.
Definition LOGICAL_MASK : Z := Z.shiftl 1 PHYSICAL_SHIFT_BITS - 1.

(** [TimestampExt::from_version] of the tikv_client crate:
    [let version = version as i64;]
    [physical: version >> PHYSICAL_SHIFT_BITS,]
    [logical: version & LOGICAL_MASK, ..Default::default()]. *)
Definition from_version (version : Z) : Timestamp :=
  let v := u64_as_i64 version in
  {| physical := Z.shiftr v PHYSICAL_SHIFT_BITS;
     logical := Z.land v LOGICAL_MASK;
     suffix_bits := 0 |}.

Definition VERSION_OVERFLOW_MSG : string :=
  "Overflow converting timestamp to version".

(** [TimestampExt::version] of the tikv_client crate:
    [((self.physical << PHYSICAL_SHIFT_BITS) + self.logical)
       .try_into().expect("Overflow converting timestamp to version")]. *)
Definition version (ts : Timestamp) : run Z :=
  i64_to_u64_expect VERSION_OVERFLOW_MSG
    (wrap_i64 (wrap_i64 (Z.shiftl (physical ts) PHYSICAL_SHIFT_BITS)
               + logical ts)).

(* ------------------------------------------------------------------ *)
(** * Bounds and ranges *)

(** The cxx shared enum [Bound]: on the Rust side a transparent struct
    around its [u8] discriminant, so C++ may pass any byte value. *)
Record Bound : Type := mkBound { repr : Z }.

Definition Bound_Included : Bound := mkBound 0.
Definition Bound_Excluded : Bound := mkBound 1.
Definition Bound_Unbounded : Bound := mkBound 2.

(** [std::ops::Bound<Vec<u8>>]. *)
Inductive ops_Bound : Type :=
| Included (k : bytes)
| Excluded (k : bytes)
| Unbounded.

(** [tikv_client::BoundRange::from((start_bound, end_bound))]. *)
Record BoundRange : Type := mkBoundRange {
  from_bound : ops_Bound;
  to_bound : ops_Bound }.

Definition UNEXPECTED_BOUND_MSG : string := "unexpected bound".

(** One [match] of [to_bound_range]. *)
Definition convert_bound (b : Bound) (k : bytes) : run ops_Bound :=
  if repr b =? repr Bound_Included then Ret (Included k)
  else if repr b =? repr Bound_Excluded then Ret (Excluded k)
  else if repr b =? repr Bound_Unbounded then Ret Unbounded
  else Panic UNEXPECTED_BOUND_MSG.

(** [to_bound_range]: the start bound is matched first, then the end. *)
Definition to_bound_range (start : bytes) (start_bound : Bound)
    (end_ : bytes) (end_bound : Bound) : run BoundRange :=
  sb <-! convert_bound start_bound start ;;
  eb <-! convert_bound end_bound end_ ;;
  Ret (mkBoundRange sb eb).

(** Membership of a key in a [BoundRange] (section 4.4 of the spec):
    excluded lower bound skips an equal key, included upper bound keeps
    it, [Unbounded] removes the constraint. *)
Definition lower_ok (b : ops_Bound) (k : bytes) : bool :=
  match b with
  | Included lo => negb (bytes_ltb k lo)
  | Excluded lo => bytes_ltb lo k
  | Unbounded => true
  end.

Definition upper_ok (b : ops_Bound) (k : bytes) : bool :=
  match b with
  | Included hi => negb (bytes_ltb hi k)
  | Excluded hi => bytes_ltb k hi
  | Unbounded => true
  end.

Definition in_range (r : BoundRange) (k : bytes) : bool :=
  lower_ok (from_bound r) k && upper_ok (to_bound r) k.

(* ------------------------------------------------------------------ *)
(** * Retry policies *)

Inductive BackoffKind : Type :=
| NoBackoff
| NoJitter.

(** [tikv_client::Backoff]. *)
Record Backoff : Type := mkBackoff {
  kind : BackoffKind;
  current_attempts : Z;   (* u32 *)
  max_attempts : Z;       (* u32 *)
  base_delay_ms : Z;      (* u64 *)
  current_delay_ms : Z;   (* u64 *)
  max_delay_ms : Z }.     (* u64 *)

(** [Backoff::no_jitter_backoff(base_delay_ms, max_delay_ms, max_attempts)]. *)
Definition no_jitter_backoff (base max : Z) (attempts : Z) : Backoff :=
  {| kind := NoJitter; current_attempts := 0; max_attempts := attempts;
     base_delay_ms := base; current_delay_ms := base; max_delay_ms := max |}.

(** Modelled from the spec: [Backoff::next_delay_duration] of the
    tikv_client crate (not in src/). The spec: exponential backoff with
    no random jitter, starting at the base delay and growing by a
    multiplier (doubling), capped at the maximum delay, bounded to
    [max_attempts] attempts; [None] means give up. *)
Definition next_delay_duration (b : Backoff) : Backoff * option Z :=
  if max_attempts b <=? current_attempts b then (b, None)
  else
    let b1 := {| kind := kind b; current_attempts := current_attempts b + 1;
                 max_attempts := max_attempts b; base_delay_ms := base_delay_ms b;
                 current_delay_ms := current_delay_ms b;
                 max_delay_ms := max_delay_ms b |} in
    match kind b with
    | NoBackoff => (b1, None)
    | NoJitter =>
        let delay_ms := Z.min (max_delay_ms b) (current_delay_ms b) in
        ({| kind := kind b; current_attempts := current_attempts b + 1;
            max_attempts := max_attempts b; base_delay_ms := base_delay_ms b;
            current_delay_ms := current_delay_ms b * 2;
            max_delay_ms := max_delay_ms b |}, Some delay_ms)
    end.

(** The successive delays a retry loop sleeps for, until the policy
    gives up ([fuel] bounds the loop). *)
Fixpoint delay_schedule (fuel : nat) (b : Backoff) : list Z :=
  match fuel with
  | O => []
  | S fuel' =>
      match next_delay_duration b with
      | (_, None) => []
      | (b', Some d) => d :: delay_schedule fuel' b'
      end
  end.

(** [tikv_client::request::RetryOptions]: [region_backoff] governs
    retries of region/network errors, [lock_backoff] retries on
    conflicting locks. *)
Record RetryOptions : Type := mkRetryOptions {
  region_backoff : Backoff;
  lock_backoff : Backoff }.

(** [RetryOptions::default_optimistic()] of the tikv_client crate; only
    its use as the starting value matters below. *)
Definition DEFAULT_REGION_BACKOFF : Backoff := no_jitter_backoff 2 500 10.
Definition OPTIMISTIC_BACKOFF : Backoff := no_jitter_backoff 2 500 10.

Definition default_optimistic : RetryOptions :=
  {| region_backoff := DEFAULT_REGION_BACKOFF; lock_backoff := OPTIMISTIC_BACKOFF |}.

Inductive TransactionKind : Type :=
| Optimistic
| Pessimistic.

(** [tikv_client::TransactionOptions]. *)
Record TransactionOptions : Type := mkTransactionOptions {
  tx_kind : TransactionKind;
  retry_options : RetryOptions }.

(** [TransactionOptions::new_optimistic()]. *)
Definition new_optimistic : TransactionOptions :=
  {| tx_kind := Optimistic; retry_options := default_optimistic |}.

(** [TransactionOptions::retry_options(self, options)]. *)
Definition set_retry_options (o : TransactionOptions) (r : RetryOptions)
    : TransactionOptions :=
  {| tx_kind := tx_kind o; retry_options := r |}.

(* ------------------------------------------------------------------ *)
(** * Transactions and snapshots *)

(** Mutation buffer entries. *)
Inductive Mutation : Type :=
| Put (v : bytes)
| Del.

Inductive TxStatus : Type :=
| Active
| Prewriting
| Committing
| Committed
| RolledBack
| Failed.

Definition is_terminal (s : TxStatus) : bool :=
  match s with
  | Committed | RolledBack | Failed => true
  | Active | Prewriting | Committing => false
  end.

(** [tikv_client::Transaction]: start timestamp, options, the mutation
    buffer in insertion order, and the lifecycle state. *)
Record Transaction : Type := mkTransaction {
  start_ts : Timestamp;
  options : TransactionOptions;
  buffer : list (bytes * Mutation);
  status : TxStatus }.

(** [tikv_client::Snapshot]. *)
Record Snapshot : Type := mkSnapshot {
  snap_ts : Timestamp;
  snap_options : TransactionOptions }.

(** [client.snapshot(timestamp, options)]. *)
Definition client_snapshot (ts : Timestamp) (o : TransactionOptions) : Snapshot :=
  {| snap_ts := ts; snap_options := o |}.

(** [client.new_transaction_with_options(timestamp, options)]. *)
Definition new_transaction_with_options (ts : Timestamp) (o : TransactionOptions)
    : Transaction :=
  {| start_ts := ts; options := o; buffer := []; status := Active |}.

Definition with_buffer (tx : Transaction) (b : list (bytes * Mutation)) : Transaction :=
  {| start_ts := start_ts tx; options := options tx; buffer := b; status := status tx |}.

Definition with_status (tx : Transaction) (s : TxStatus) : Transaction :=
  {| start_ts := start_ts tx; options := options tx; buffer := buffer tx; status := s |}.

(** Modelled from the spec: the mutation buffer of the tikv_client
    crate's transaction (not in src/), an insertion-ordered map from key
    to [Put v | Del] in which the last write per key wins. *)
Fixpoint buffer_lookup (b : list (bytes * Mutation)) (k : bytes) : option Mutation :=
  match b with
  | [] => None
  | (k', m) :: b' => if bytes_eqb k k' then Some m else buffer_lookup b' k
  end.

(** Modelled from the spec: upsert into the buffer; an existing key keeps
    its insertion position, a new key goes to the end. *)
Definition buffer_insert (b : list (bytes * Mutation)) (k : bytes) (m : Mutation)
    : list (bytes * Mutation) :=
  if existsb (fun e => bytes_eqb k (fst e)) b
  then map (fun e => if bytes_eqb k (fst e) then (fst e, m) else e) b
  else b ++ [(k, m)].

(** The key-value backend (storage nodes and timestamp oracle), a
    capability interface: each request carries its timestamps. *)
Record Backend : Type := mkBackend {
  be_current_timestamp : result Timestamp;
  (* snapshot read of one key at a timestamp *)
  be_get : Timestamp -> bytes -> result (option bytes);
  (* snapshot range read at a timestamp, with a result limit *)
  be_scan : Timestamp -> BoundRange -> Z -> result (list (bytes * bytes));
  (* prewrite of the primary: start ts, primary key, its mutation *)
  be_prewrite_primary : Timestamp -> bytes -> option Mutation -> result unit;
  (* prewrite of the secondaries pointing at the primary *)
  be_prewrite_secondary : Timestamp -> bytes -> list (bytes * Mutation) -> result unit;
  (* commit of the secondaries at the commit ts *)
  be_commit_secondary : Timestamp -> Timestamp -> list bytes -> result unit }.

(** The placement driver's safepoint service and the connection to it. *)
Record Pd : Type := mkPd { gc_safe_point : Z }.

(** cxx shared structs. *)
Record OptionalValue : Type := mkOptionalValue { is_none : bool; value : bytes }.
Record KvPair : Type := mkKvPair { kv_key : bytes; kv_value : bytes }.
Record PrewriteResult : Type := mkPrewriteResult { pr_key : bytes; pr_version : Z }.

(** Sorted association lists: the scan result being assembled. *)
Fixpoint kv_insert (k v : bytes) (l : list (bytes * bytes)) : list (bytes * bytes) :=
  match l with
  | [] => [(k, v)]
  | (k', v') :: t =>
      match bytes_cmp k k' with
      | Lt => (k, v) :: l
      | Eq => (k, v) :: t
      | Gt => (k', v') :: kv_insert k v t
      end
  end.

Definition kv_remove (k : bytes) (l : list (bytes * bytes)) : list (bytes * bytes) :=
  filter (fun e => negb (bytes_eqb k (fst e))) l.

(** Upsert: any old binding of [k] is replaced. *)
Definition kv_put (k v : bytes) (l : list (bytes * bytes)) : list (bytes * bytes) :=
  kv_insert k v (kv_remove k l).

Definition kv_of_list (l : list (bytes * bytes)) : list (bytes * bytes) :=
  fold_left (fun acc e => kv_put (fst e) (snd e) acc) l [].

(** The body of [transaction_commit_secondary] over the engine call
    [transaction.inner.commit_secondary(...)] it makes: the u64 is turned
    into a [Timestamp] with [from_version], the engine's [Result] is
    dropped, and [()] is returned. *)
Definition commit_secondary_bridge
    (commit_secondary : Transaction -> Timestamp -> Transaction * result unit)
    (tx : Transaction) (commit_ts : Z) : Transaction * unit :=
  let (tx', _) := commit_secondary tx (from_version commit_ts) in (tx', tt).

Section Engine.

Variable be : Backend.

(** Modelled from the spec: [Transaction::get] of the tikv_client crate
    (not in src/). The mutation buffer is consulted first; otherwise the
    backend is read at the transaction's start timestamp. Terminal
    transactions reject the call. *)
Definition tx_get (tx : Transaction) (k : bytes) : result (option bytes) :=
  if is_terminal (status tx) then Err InvalidState
  else
    match buffer_lookup (buffer tx) k with
    | Some (Put v) => Ok (Some v)
    | Some Del => Ok None
    | None => be_get be (start_ts tx) k
    end.

(** Modelled from the spec: [Transaction::put], an upsert into the
    buffer that does not touch the network. *)
Definition tx_put (tx : Transaction) (k v : bytes) : Transaction * result unit :=
  if is_terminal (status tx) then (tx, Err InvalidState)
  else (with_buffer tx (buffer_insert (buffer tx) k (Put v)), Ok tt).

(** Modelled from the spec: [Transaction::delete], a tombstone in the buffer. *)
Definition tx_delete (tx : Transaction) (k : bytes) : Transaction * result unit :=
  if is_terminal (status tx) then (tx, Err InvalidState)
  else (with_buffer tx (buffer_insert (buffer tx) k Del), Ok tt).

Definition buffered_in_range (tx : Transaction) (r : BoundRange)
    : list (bytes * Mutation) :=
  filter (fun e => in_range r (fst e)) (buffer tx).

Definition count_deletes (l : list (bytes * Mutation)) : Z :=
  Z.of_nat (List.length (filter (fun e => match snd e with Del => true | Put _ => false end) l)).

(** One buffered write applied to the assembled result: its key takes
    the buffer's current entry. *)
Definition overlay_step (tx : Transaction) (acc : list (bytes * bytes))
    (e : bytes * Mutation) : list (bytes * bytes) :=
  match buffer_lookup (buffer tx) (fst e) with
  | Some (Put v) => kv_put (fst e) v acc
  | Some Del => kv_remove (fst e) acc
  | None => acc
  end.

(** Modelled from the spec: [Transaction::scan] of the tikv_client crate
    (not in src/). The backend is read over the range at the start
    timestamp (asking for as many more entries as there are buffered
    deletes in range, since those are suppressed), the buffered writes in
    range are merged in (deletes suppress, puts override), and the first
    [limit] entries in ascending key order are returned; [limit = 0]
    yields no entries. *)
Definition tx_scan (tx : Transaction) (r : BoundRange) (limit : Z)
    : result (list (bytes * bytes)) :=
  if is_terminal (status tx) then Err InvalidState
  else
    let muts := buffered_in_range tx r in
    match be_scan be (start_ts tx) r (limit + count_deletes muts) with
    | Err e => Err e
    | Ok pairs =>
        Ok (firstn (Z.to_nat limit)
              (fold_left (overlay_step tx) muts (kv_of_list pairs)))
    end.

(** Modelled from the spec: [Transaction::prewrite_primary]. The primary
    is the explicit key when given, else the first key of the buffer in
    insertion order; on success the call returns the primary with the
    start timestamp and the transaction moves to [Prewriting]. *)
Definition tx_prewrite_primary (tx : Transaction) (pk : option bytes)
    : Transaction * result (bytes * Timestamp) :=
  match status tx with
  | Active =>
      let primary :=
        match pk with
        | Some k => Some k
        | None => option_map fst (hd_error (buffer tx))
        end in
      match primary with
      | None => (tx, Err InvalidState)
      | Some p =>
          match be_prewrite_primary be (start_ts tx) p (buffer_lookup (buffer tx) p) with
          | Ok _ => (with_status tx Prewriting, Ok (p, start_ts tx))
          | Err e => (with_status tx Failed, Err e)
          end
      end
  | _ => (tx, Err InvalidState)
  end.

(** Modelled from the spec: [Transaction::prewrite_secondary]; every
    other buffered key is prewritten pointing at [primary] and [start]. *)
Definition tx_prewrite_secondary (tx : Transaction) (primary : bytes) (start : Timestamp)
    : Transaction * result unit :=
  if is_terminal (status tx) then (tx, Err InvalidState)
  else
    let secondaries := filter (fun e => negb (bytes_eqb primary (fst e))) (buffer tx) in
    match be_prewrite_secondary be start primary secondaries with
    | Ok _ => (tx, Ok tt)
    | Err e => (with_status tx Failed, Err e)
    end.

(** Modelled from the spec: [Transaction::commit_secondary]; best-effort
    resolution of the secondary locks at the commit timestamp, after
    which the transaction is committed either way. *)
Definition tx_commit_secondary (tx : Transaction) (commit_ts : Timestamp)
    : Transaction * result unit :=
  (with_status tx Committed,
   be_commit_secondary be (start_ts tx) commit_ts (map fst (buffer tx))).

(** Modelled from the spec: [TransactionClient::gc] of the tikv_client
    crate converts the safepoint with [version()] and asks the safepoint
    service to advance; it fails on a communication failure and answers
    [false] (leaving the old safepoint) when the new one does not
    increase it. *)
Definition gc (reachable : bool) (pd : Pd) (safepoint : Timestamp)
    : run (Pd * result bool) :=
  v <-! version safepoint ;;
  if negb reachable then Ret (pd, Err BackendError)
  else if gc_safe_point pd <? v then Ret (mkPd v, Ok true)
  else Ret (pd, Ok false).

(* ------------------------------------------------------------------ *)
(** * The bridge functions of src/src/lib.rs *)

Definition lift_unit (r : result unit) : result unit :=
  match r with Ok _ => Ok tt | Err e => Err e end.

(** [client_gc]. *)
Definition client_gc (reachable : bool) (pd : Pd) (safepoint : Z)
    : run (Pd * result bool) :=
  let safepoint := from_version safepoint in
  pr <-! gc reachable pd safepoint ;;
  Ret (fst pr, match snd pr with Ok b => Ok b | Err e => Err e end).

(** [transaction_client_begin_optimistic_with_option]. *)
Definition transaction_client_begin_optimistic_with_option (retry : Z)
    : result Transaction :=
  let options := new_optimistic in
  let retry_options :=
    {| region_backoff := region_backoff default_optimistic;
       lock_backoff := no_jitter_backoff 2 500 retry |} in
  let options := set_retry_options options retry_options in
  match be_current_timestamp be with
  | Err e => Err e
  | Ok timestamp => Ok (new_transaction_with_options timestamp options)
  end.

(** [transaction_get]. *)
Definition transaction_get (tx : Transaction) (key : bytes) : result OptionalValue :=
  match tx_get tx key with
  | Err e => Err e
  | Ok (Some value) => Ok {| is_none := false; value := value |}
  | Ok None => Ok {| is_none := true; value := [] |}
  end.

Definition NOT_IMPLEMENTED_MSG : string :=
  "not implemented: batch_get_for_update is not working properly so far.".

(** [transaction_batch_get_for_update]: the body is [unimplemented!]. *)
Definition transaction_batch_get_for_update (_tx : Transaction) (_keys : list bytes)
    : run (result (list KvPair)) :=
  Panic NOT_IMPLEMENTED_MSG.

(** [transaction_scan]. *)
Definition transaction_scan (tx : Transaction) (start : bytes) (start_bound : Bound)
    (end_ : bytes) (end_bound : Bound) (limit : Z) : run (result (list KvPair)) :=
  range <-! to_bound_range start start_bound end_ end_bound ;;
  Ret (match tx_scan tx range limit with
       | Err e => Err e
       | Ok l => Ok (map (fun p => {| kv_key := fst p; kv_value := snd p |}) l)
       end).

(** [transaction_put]. *)
Definition transaction_put (tx : Transaction) (key val : bytes) : Transaction * result unit :=
  let (tx', r) := tx_put tx key val in (tx', lift_unit r).

(** [transaction_delete]. *)
Definition transaction_delete (tx : Transaction) (key : bytes) : Transaction * result unit :=
  let (tx', r) := tx_delete tx key in (tx', lift_unit r).

(** The [primary_key] argument of [transaction_prewrite_primary]. *)
Definition primary_key_arg (primary_key : bytes) : option bytes :=
  if cxx_is_empty primary_key then None else Some primary_key.

(** [transaction_prewrite_primary]. *)
Definition transaction_prewrite_primary (tx : Transaction) (primary_key : bytes)
    : run (Transaction * result PrewriteResult) :=
  let primary_key := primary_key_arg primary_key in
  let (tx', r) := tx_prewrite_primary tx primary_key in
  match r with
  | Ok (key, ts) =>
      v <-! version ts ;; Ret (tx', Ok {| pr_key := key; pr_version := v |})
  | Err e => Ret (tx', Err e)
  end.

(** [transaction_prewrite_secondary]. *)
Definition transaction_prewrite_secondary (tx : Transaction) (primary_key : bytes)
    (start_ts : Z) : Transaction * result unit :=
  let (tx', r) := tx_prewrite_secondary tx primary_key (from_version start_ts) in
  (tx', lift_unit r).

(** [transaction_commit_secondary]: the backend's [Result] is dropped and
    the function returns [()]. *)
Definition transaction_commit_secondary (tx : Transaction) (commit_ts : Z)
    : Transaction * unit :=
  commit_secondary_bridge tx_commit_secondary tx commit_ts.

(** [snapshot_new_with_timestamp]. *)
Definition snapshot_new_with_timestamp (timestamp : Z) : result Snapshot :=
  let timestamp := from_version timestamp in
  Ok (client_snapshot timestamp new_optimistic).

(** [current_timestamp]. *)
Definition current_timestamp : run (result Z) :=
  match be_current_timestamp be with
  | Err e => Ret (Err e)
  | Ok timestamp => v <-! version timestamp ;; Ret (Ok v)
  end.

End Engine.

(* ------------------------------------------------------------------ *)
(** * The remaining bridge functions *)

(** [snapshot_new]: the snapshot is anchored at a freshly fetched
    timestamp. *)
Definition snapshot_new (be : Backend) : result Snapshot :=
  match be_current_timestamp be with
  | Err e => Err e
  | Ok timestamp => Ok (client_snapshot timestamp new_optimistic)
  end.

(** The [match] shared by [transaction_get], [transaction_get_for_update]
    and [snapshot_get]: [Option<Vec<u8>>] to [OptionalValue]. *)
Definition optional_value_of (r : result (option bytes)) : result OptionalValue :=
  match r with
  | Err e => Err e
  | Ok (Some value) => Ok {| is_none := false; value := value |}
  | Ok None => Ok {| is_none := true; value := [] |}
  end.

(** How a reader of an [OptionalValue] (the C++ side) recovers the option. *)
Definition option_of_optional_value (o : OptionalValue) : option bytes :=
  if is_none o then None else Some (value o).

(** The same reading lifted to the [Result] a wrapper returns. *)
Definition result_option_of (r : result OptionalValue) : result (option bytes) :=
  match r with
  | Err e => Err e
  | Ok o => Ok (option_of_optional_value o)
  end.

Definition kv_pairs_of (l : list (bytes * bytes)) : list KvPair :=
  map (fun p => {| kv_key := fst p; kv_value := snd p |}) l.

Section Bridge.

(** The tikv_client calls these wrappers make and that are not modelled
    above, left abstract: [get_for_update], [scan_keys] and
    [commit_primary] of a transaction, and [get], [scan] and
    [scan_keys] of a snapshot. *)
Variable tx_get_for_update : Transaction -> bytes -> Transaction * result (option bytes).
Variable tx_scan_keys : Transaction -> BoundRange -> Z -> result (list bytes).
Variable tx_commit_primary : Transaction -> Transaction * result Timestamp.
Variable snap_get : Snapshot -> bytes -> result (option bytes).
Variable snap_scan : Snapshot -> BoundRange -> Z -> result (list (bytes * bytes)).
Variable snap_scan_keys : Snapshot -> BoundRange -> Z -> result (list bytes).

(** [transaction_get_for_update]. *)
Definition transaction_get_for_update (tx : Transaction) (key : bytes)
    : Transaction * result OptionalValue :=
  let (tx', r) := tx_get_for_update tx key in (tx', optional_value_of r).

(** [snapshot_get]. *)
Definition snapshot_get (s : Snapshot) (key : bytes) : result OptionalValue :=
  optional_value_of (snap_get s key).

(** [transaction_scan_keys]. *)
Definition transaction_scan_keys (tx : Transaction) (start : bytes) (start_bound : Bound)
    (end_ : bytes) (end_bound : Bound) (limit : Z) : run (result (list bytes)) :=
  range <-! to_bound_range start start_bound end_ end_bound ;;
  Ret (tx_scan_keys tx range limit).

(** [snapshot_scan]. *)
Definition snapshot_scan (s : Snapshot) (start : bytes) (start_bound : Bound)
    (end_ : bytes) (end_bound : Bound) (limit : Z) : run (result (list KvPair)) :=
  range <-! to_bound_range start start_bound end_ end_bound ;;
  Ret (match snap_scan s range limit with
       | Err e => Err e
       | Ok l => Ok (kv_pairs_of l)
       end).

(** [snapshot_scan_keys]. *)
Definition snapshot_scan_keys (s : Snapshot) (start : bytes) (start_bound : Bound)
    (end_ : bytes) (end_bound : Bound) (limit : Z) : run (result (list bytes)) :=
  range <-! to_bound_range start start_bound end_ end_bound ;;
  Ret (snap_scan_keys s range limit).

(** [transaction_commit_primary]. *)
Definition transaction_commit_primary (tx : Transaction) : run (Transaction * result Z) :=
  let (tx', r) := tx_commit_primary tx in
  match r with
  | Ok ts => v <-! version ts ;; Ret (tx', Ok v)
  | Err e => Ret (tx', Err e)
  end.

End Bridge.

(** A timestamp as the placement driver issues it: a non-negative
    physical part that fits the 45 bits above the logical part, an 18-bit
    logical counter and no suffix. *)
Definition pd_timestamp (t : Timestamp) : Prop :=
  0 <= physical t < 2 ^ 45 /\ 0 <= logical t < 2 ^ 18 /\ suffix_bits t = 0.

(** Order of timestamps by (physical, logical). *)
Definition ts_lt (t1 t2 : Timestamp) : Prop :=
  physical t1 < physical t2 \/ (physical t1 = physical t2 /\ logical t1 < logical t2).

(* ------------------------------------------------------------------ *)
(** * Log file names *)

(** The local date and time read by [chrono::Local::now()]. *)
Record DateTime : Type := mkDateTime {
  dt_year : Z; dt_month : Z; dt_day : Z;
  dt_hour : Z; dt_minute : Z; dt_second : Z }.

Definition digit (d : Z) : Ascii.ascii := Ascii.ascii_of_nat (48 + Z.to_nat d).

(** chrono's zero-padded numeric fields: [%m %d %H %M %S] take two
    digits, [%Y] four (for the years 0 to 9999). *)
Definition pad2 (n : Z) : string :=
  String (digit (n / 10)) (String (digit (n mod 10)) EmptyString).

Definition pad4 (n : Z) : string :=
  (pad2 (n / 100) ++ pad2 (n mod 100))%string.

(** [format("/tikv-client-%Y%m%d%H%M%S.log")]. *)
Definition log_file_name (dt : DateTime) : string :=
  ("/tikv-client-" ++ pad4 (dt_year dt) ++ pad2 (dt_month dt) ++ pad2 (dt_day dt)
   ++ pad2 (dt_hour dt) ++ pad2 (dt_minute dt) ++ pad2 (dt_second dt) ++ ".log")%string.

(** The path [create_slog_logger] opens: [log_path.push_str(&log_file_name)]. *)
Definition log_file_path (log_path : string) (dt : DateTime) : string :=
  (log_path ++ log_file_name dt)%string.

(** The ranges chrono produces for the fields (a leap second shows as 60),
    with the year inside the four-digit range of [%Y]. *)
Definition dt_in_range (dt : DateTime) : Prop :=
  0 <= dt_year dt <= 9999 /\ 1 <= dt_month dt <= 12 /\ 1 <= dt_day dt <= 31 /\
  0 <= dt_hour dt <= 23 /\ 0 <= dt_minute dt <= 59 /\ 0 <= dt_second dt <= 60.

(* ------------------------------------------------------------------ *)
(** * Spec-side notions used by the statements *)

(** The range bound each tag of [Bound] stands for, over the key bytes
    given with it. *)
Inductive tag_of : Bound -> bytes -> ops_Bound -> Prop :=
| tag_included (k : bytes) : tag_of Bound_Included k (Included k)
| tag_excluded (k : bytes) : tag_of Bound_Excluded k (Excluded k)
| tag_unbounded (k : bytes) : tag_of Bound_Unbounded k Unbounded.

(** Whether a [Bound] value carries one of the three declared tags. *)
Definition bound_valid (b : Bound) : bool :=
  (repr b =? 0) || (repr b =? 1) || (repr b =? 2).

(* ------------------------------------------------------------------ *)
(** * A small in-memory backend, for concrete runs *)

Definition demo_store : list (bytes * bytes) :=
  [([x01], [x0a]); ([x02], [x14]); ([x03], [x1e]); ([x05], [x32])].

Definition demo_backend : Backend :=
  {| be_current_timestamp := Ok (from_version 100);
     be_get := fun _ k =>
       Ok (option_map snd (find (fun e => bytes_eqb k (fst e)) demo_store));
     be_scan := fun _ r _ => Ok (filter (fun e => in_range r (fst e)) demo_store);
     be_prewrite_primary := fun _ _ _ => Ok tt;
     be_prewrite_secondary := fun _ _ _ => Ok tt;
     be_commit_secondary := fun _ _ _ => Err BackendError |}.

Definition demo_tx : Transaction :=
  {| start_ts := from_version 100; options := new_optimistic;
     buffer := [([x02], Put [x63]); ([x03], Del); ([x04], Put [x2c])];
     status := Active |}.

(* ================================================================== *)
(** * Properties *)

(* ------------------------------------------------------------------ *)
(** ** Timestamp conversions *)

Lemma wrap_i64_id (x : Z) : -two63 <= x < two63 -> wrap_i64 x = x.
Proof.
  intros Hx. unfold wrap_i64, two63, two64 in *.
  destruct (Z_le_gt_dec 0 x) as [Hp | Hn].
  - rewrite Z.mod_small by lia.
    destruct (Z.ltb_spec x (2 ^ 63)); lia.
  - assert (Hm : x mod 2 ^ 64 = x + 2 ^ 64).
    { rewrite <- (Z.mod_add x 1 (2 ^ 64)) by lia.
      rewrite Z.mod_small by lia. lia. }
    rewrite Hm. destruct (Z.ltb_spec (x + 2 ^ 64) (2 ^ 63)); lia.
Qed.

Lemma LOGICAL_MASK_ones : LOGICAL_MASK = Z.ones PHYSICAL_SHIFT_BITS.
Proof. reflexivity. Qed.

(** The i64 reassembled by [version()] from [from_version v] is
    [v as i64]. *)
Lemma from_version_reassemble (v : Z) :
  is_u64 v ->
  wrap_i64 (wrap_i64 (Z.shiftl (physical (from_version v)) PHYSICAL_SHIFT_BITS)
            + logical (from_version v)) = u64_as_i64 v.
Proof.
  intros Hv. unfold is_u64 in Hv.
  assert (Hi : -two63 <= u64_as_i64 v < two63).
  { unfold u64_as_i64, two63, two64 in *.
    destruct (Z.ltb_spec v (2 ^ 63)); lia. }
  unfold from_version; cbn [physical logical]. set (w := u64_as_i64 v) in *.
  rewrite LOGICAL_MASK_ones, Z.land_ones by (unfold PHYSICAL_SHIFT_BITS; lia).
  rewrite Z.shiftl_mul_pow2, Z.shiftr_div_pow2 by (unfold PHYSICAL_SHIFT_BITS; lia).
  unfold PHYSICAL_SHIFT_BITS.
  pose proof (Z.div_mod w (2 ^ 18) ltac:(lia)) as Hdm.
  pose proof (Z.mod_pos_bound w (2 ^ 18) ltac:(lia)) as Hmb.
  assert (Hlo : -two63 <= w / 2 ^ 18 * 2 ^ 18).
  { assert (Hq : -2 ^ 45 <= w / 2 ^ 18).
    { apply Z.div_le_lower_bound; unfold two63 in Hi; [lia |].
      change (2 ^ 18 * - 2 ^ 45) with (- 2 ^ 63). lia. }
    unfold two63. lia. }
  unfold two63 in *. change (2 ^ 63) with 9223372036854775808 in *.
  change (2 ^ 18) with 262144 in *.
  rewrite (wrap_i64_id (w / 262144 * 262144))
    by (unfold two63; change (2 ^ 63) with 9223372036854775808; lia).
  rewrite wrap_i64_id
    by (unfold two63; change (2 ^ 63) with 9223372036854775808; lia).
  lia.
Qed.

Lemma version_from_version (v : Z) :
  is_u64 v ->
  version (from_version v) =
    if v <? two63 then Ret v else Panic VERSION_OVERFLOW_MSG.
Proof.
  intros Hv. unfold version. rewrite from_version_reassemble by exact Hv.
  unfold is_u64, i64_to_u64_expect, u64_as_i64, two63, two64 in *.
  destruct (Z.ltb_spec v (2 ^ 63)).
  - destruct (Z.ltb_spec v 0); [lia | reflexivity].
  - destruct (Z.ltb_spec (v - 2 ^ 64) 0); [reflexivity | lia].
Qed.

(* ------------------------------------------------------------------ *)
(** ** Backoff schedules *)

Lemma delay_schedule_no_jitter (n fuel : nat) (a d cap : Z) :
  (n <= fuel)%nat ->
  delay_schedule fuel
    {| kind := NoJitter; current_attempts := a; max_attempts := a + Z.of_nat n;
       base_delay_ms := 2; current_delay_ms := d; max_delay_ms := cap |} =
  map (fun i => Z.min cap (d * 2 ^ Z.of_nat i)) (seq 0 n).
Proof.
  revert fuel a d. induction n as [| n IH]; intros fuel a d Hf.
  - destruct fuel as [| fuel]; [reflexivity |].
    simpl. unfold next_delay_duration. simpl.
    replace (a + 0 <=? a) with true by (symmetry; apply Z.leb_le; lia).
    reflexivity.
  - destruct fuel as [| fuel]; [lia |].
    cbn [delay_schedule]. unfold next_delay_duration. cbn [max_attempts current_attempts kind].
    replace (a + Z.of_nat (S n) <=? a) with false by (symmetry; apply Z.leb_gt; lia).
    cbn -[Z.min Z.of_nat seq].
    replace (a + Z.of_nat (S n)) with ((a + 1) + Z.of_nat n) by lia.
    rewrite IH by lia.
    cbn [seq map]. rewrite Z.mul_1_r. f_equal.
    rewrite <- seq_shift, map_map. apply map_ext. intros i.
    rewrite Nat2Z.inj_succ, Z.pow_succ_r by lia.
    f_equal. ring.
Qed.

(* ------------------------------------------------------------------ *)
(** ** Byte-string order *)

Lemma byte_to_N_inj (x y : byte) : Byte.to_N x = Byte.to_N y -> x = y.
Proof.
  intros H. pose proof (Byte.of_to_N x) as Hx. pose proof (Byte.of_to_N y) as Hy.
  rewrite H in Hx. congruence.
Qed.

Lemma bytes_cmp_refl (a : bytes) : bytes_cmp a a = Eq.
Proof. induction a as [| x a IH]; simpl; [reflexivity |]. rewrite N.compare_refl. exact IH. Qed.

Lemma bytes_cmp_eq (a b : bytes) : bytes_cmp a b = Eq -> a = b.
Proof.
  revert b. induction a as [| x a IH]; intros [| y b]; simpl; try discriminate; auto.
  destruct (N.compare_spec (Byte.to_N x) (Byte.to_N y)) as [H | H | H]; try discriminate.
  intros Hc. apply byte_to_N_inj in H. subst. f_equal. auto.
Qed.

Lemma bytes_cmp_antisym (a b : bytes) : bytes_cmp b a = CompOpp (bytes_cmp a b).
Proof.
  revert b. induction a as [| x a IH]; intros [| y b]; simpl; try reflexivity.
  rewrite (N.compare_antisym (Byte.to_N x) (Byte.to_N y)).
  destruct (N.compare (Byte.to_N x) (Byte.to_N y)); simpl; auto.
Qed.

Lemma bytes_lt_trans (a b c : bytes) : bytes_lt a b -> bytes_lt b c -> bytes_lt a c.
Proof.
  unfold bytes_lt. revert b c.
  induction a as [| x a IH]; intros [| y b] [| z c]; simpl; try discriminate; auto.
  destruct (N.compare_spec (Byte.to_N x) (Byte.to_N y)) as [H1 | H1 | H1];
  destruct (N.compare_spec (Byte.to_N y) (Byte.to_N z)) as [H2 | H2 | H2];
  try discriminate; intros E1 E2;
  destruct (N.compare_spec (Byte.to_N x) (Byte.to_N z)); try lia; eauto.
Qed.

Lemma bytes_eqb_spec (a b : bytes) : bytes_eqb a b = true <-> a = b.
Proof.
  unfold bytes_eqb. split.
  - destruct (bytes_cmp a b) eqn:E; try discriminate. intros _. now apply bytes_cmp_eq.
  - intros ->. now rewrite bytes_cmp_refl.
Qed.

(* ------------------------------------------------------------------ *)
(** ** Sorted association lists *)

Definition key_lt (a b : bytes * bytes) : Prop := bytes_lt (fst a) (fst b).

Definition key_in (k : bytes) (l : list (bytes * bytes)) : Prop := In k (map fst l).

Lemma kv_insert_In (k v : bytes) (l : list (bytes * bytes)) (x : bytes * bytes) :
  In x (kv_insert k v l) -> x = (k, v) \/ In x l.
Proof.
  induction l as [| [k' v'] t IH]; simpl; [intuition |].
  destruct (bytes_cmp k k'); simpl; intros [H | H]; auto.
  destruct (IH H); auto.
Qed.

Lemma kv_insert_sorted (k v : bytes) (l : list (bytes * bytes)) :
  StronglySorted key_lt l -> StronglySorted key_lt (kv_insert k v l).
Proof.
  induction l as [| [k' v'] t IH]; intros Hs; simpl.
  - repeat constructor.
  - inversion Hs as [| ? ? Ht Hf]; subst.
    destruct (bytes_cmp k k') eqn:E.
    + apply bytes_cmp_eq in E. subst. constructor; [exact Ht | exact Hf].
    + constructor; [exact Hs |]. constructor; [exact E |].
      eapply Forall_impl; [| exact Hf]. intros [a b]. unfold key_lt. simpl.
      apply bytes_lt_trans. exact E.
    + constructor; [auto |]. apply Forall_forall. intros x Hx.
      destruct (kv_insert_In _ _ _ _ Hx) as [-> | Hx'].
      * unfold key_lt, bytes_lt. simpl. rewrite bytes_cmp_antisym, E. reflexivity.
      * rewrite Forall_forall in Hf. auto.
Qed.

Lemma filter_sorted {A} (R : A -> A -> Prop) (f : A -> bool) (l : list A) :
  StronglySorted R l -> StronglySorted R (filter f l).
Proof.
  induction l as [| a t IH]; intros Hs; simpl; [constructor |].
  inversion Hs; subst. destruct (f a); [| auto].
  constructor; [auto |]. apply Forall_forall. intros x Hx.
  apply filter_In in Hx. rewrite Forall_forall in *. intuition.
Qed.

Lemma in_firstn {A} (n : nat) (l : list A) (x : A) : In x (firstn n l) -> In x l.
Proof. intros H. rewrite <- (firstn_skipn n l). apply in_or_app. auto. Qed.

Lemma firstn_sorted {A} (R : A -> A -> Prop) (n : nat) (l : list A) :
  StronglySorted R l -> StronglySorted R (firstn n l).
Proof.
  revert l. induction n as [| n IH]; intros [| a t] Hs; simpl; try constructor.
  - inversion Hs; subst. auto.
  - inversion Hs; subst. apply Forall_forall. intros x Hx.
    apply in_firstn in Hx. rewrite Forall_forall in *. auto.
Qed.

Lemma kv_remove_In (k : bytes) (l : list (bytes * bytes)) (x : bytes * bytes) :
  In x (kv_remove k l) <-> In x l /\ fst x <> k.
Proof.
  unfold kv_remove. rewrite filter_In. rewrite negb_true_iff.
  split; intros [H1 H2]; split; auto.
  - intros Hk. subst. rewrite (proj2 (bytes_eqb_spec _ _) eq_refl) in H2. discriminate.
  - destruct (bytes_eqb k (fst x)) eqn:E; [| reflexivity].
    apply bytes_eqb_spec in E. congruence.
Qed.

Lemma key_in_iff (k : bytes) (l : list (bytes * bytes)) :
  key_in k l <-> exists v, In (k, v) l.
Proof.
  unfold key_in. rewrite in_map_iff. split.
  - intros [[a b] [Ha Hin]]. simpl in Ha. subst. eauto.
  - intros [v Hv]. exists (k, v). auto.
Qed.

Lemma kv_put_sorted (k v : bytes) (l : list (bytes * bytes)) :
  StronglySorted key_lt l -> StronglySorted key_lt (kv_put k v l).
Proof. intros Hs. apply kv_insert_sorted, filter_sorted, Hs. Qed.

Lemma kv_put_In (k v : bytes) (l : list (bytes * bytes)) (x : bytes * bytes) :
  In x (kv_put k v l) -> x = (k, v) \/ (In x l /\ fst x <> k).
Proof.
  unfold kv_put. intros H. apply kv_insert_In in H as [H | H]; auto.
  apply kv_remove_In in H. auto.
Qed.

Lemma kv_put_In_other (k v : bytes) (l : list (bytes * bytes)) (x : bytes * bytes) :
  fst x <> k -> In x (kv_put k v l) -> In x l.
Proof.
  intros Hne H. apply kv_put_In in H as [-> | [H _]]; [simpl in Hne; congruence | exact H].
Qed.

Lemma kv_of_list_In (l : list (bytes * bytes)) (x : bytes * bytes) :
  In x (kv_of_list l) -> In x l.
Proof.
  unfold kv_of_list.
  assert (G : forall acc, In x (fold_left (fun acc e => kv_put (fst e) (snd e) acc) l acc) ->
                          In x l \/ In x acc).
  { induction l as [| e t IH]; intros acc H; simpl in *; [auto |].
    destruct (IH _ H) as [H1 | H1]; [auto |].
    apply kv_put_In in H1 as [-> | [H1 _]]; [destruct e; auto | auto]. }
  intros H. destruct (G [] H) as [H1 | []]. exact H1.
Qed.

Lemma kv_of_list_sorted (l : list (bytes * bytes)) : StronglySorted key_lt (kv_of_list l).
Proof.
  unfold kv_of_list.
  assert (G : forall acc, StronglySorted key_lt acc ->
     StronglySorted key_lt (fold_left (fun acc e => kv_put (fst e) (snd e) acc) l acc)).
  { induction l as [| e t IH]; intros acc H; simpl; auto. apply IH, kv_put_sorted, H. }
  apply G. constructor.
Qed.

Lemma sorted_map {A B} (R : A -> A -> Prop) (R' : B -> B -> Prop) (f : A -> B) (l : list A) :
  (forall a b, R a b -> R' (f a) (f b)) ->
  StronglySorted R l -> StronglySorted R' (map f l).
Proof.
  intros HR. induction l as [| a t IH]; intros Hs; simpl; [constructor |].
  inversion Hs; subst. constructor; [auto |].
  apply Forall_map. eapply Forall_impl; [| eassumption]. auto.
Qed.

Lemma buffer_lookup_In (b : list (bytes * Mutation)) (k : bytes) (m : Mutation) :
  buffer_lookup b k = Some m -> In (k, m) b.
Proof.
  induction b as [| [k' m'] t IH]; simpl; [discriminate |].
  destruct (bytes_eqb k k') eqn:E; intros H.
  - apply bytes_eqb_spec in E. inversion H. subst. auto.
  - auto.
Qed.

(* ------------------------------------------------------------------ *)
(** ** Merging the buffer into a scan *)

Lemma overlay_sorted (tx : Transaction) (L : list (bytes * Mutation)) :
  forall acc, StronglySorted key_lt acc ->
  StronglySorted key_lt (fold_left (overlay_step tx) L acc).
Proof.
  induction L as [| e t IH]; intros acc Hs; simpl; [exact Hs |].
  apply IH. unfold overlay_step.
  destruct (buffer_lookup (buffer tx) (fst e)) as [[v |] |].
  - apply kv_put_sorted, Hs.
  - apply filter_sorted, Hs.
  - exact Hs.
Qed.

Lemma overlay_step_In (tx : Transaction) (acc : list (bytes * bytes)) (e : bytes * Mutation)
    (x : bytes * bytes) :
  In x (overlay_step tx acc e) -> In x acc \/ fst x = fst e.
Proof.
  unfold overlay_step. destruct (buffer_lookup (buffer tx) (fst e)) as [[v |] |]; intros H.
  - apply kv_put_In in H as [-> | [H _]]; auto.
  - apply kv_remove_In in H as [H _]. auto.
  - auto.
Qed.

Lemma overlay_step_other (tx : Transaction) (acc : list (bytes * bytes)) (e : bytes * Mutation)
    (x : bytes * bytes) :
  fst x <> fst e -> In x (overlay_step tx acc e) -> In x acc.
Proof.
  intros Hne. unfold overlay_step.
  destruct (buffer_lookup (buffer tx) (fst e)) as [[v |] |]; intros H.
  - exact (kv_put_In_other _ _ _ _ Hne H).
  - apply kv_remove_In in H as [H _]. exact H.
  - exact H.
Qed.

Lemma overlay_In (tx : Transaction) (L : list (bytes * Mutation)) :
  forall acc x, In x (fold_left (overlay_step tx) L acc) -> In x acc \/ In (fst x) (map fst L).
Proof.
  induction L as [| e t IH]; intros acc x H; simpl in *; [auto |].
  destruct (IH _ _ H) as [H1 | H1]; [| auto].
  apply overlay_step_In in H1 as [H1 | H1]; auto.
Qed.

Lemma overlay_del (tx : Transaction) (k : bytes) :
  buffer_lookup (buffer tx) k = Some Del ->
  forall L acc, key_in k (fold_left (overlay_step tx) L acc) ->
  ~ In k (map fst L) /\ key_in k acc.
Proof.
  intros Hk. induction L as [| e t IH]; intros acc H; simpl in *; [auto |].
  destruct (IH _ H) as [Hnot Hacc].
  apply key_in_iff in Hacc as [w Hw].
  destruct (list_eq_dec Byte.byte_eq_dec (fst e) k) as [He | He].
  - exfalso. unfold overlay_step in Hw. rewrite He, Hk in Hw.
    apply kv_remove_In in Hw as [_ Hw]. simpl in Hw. congruence.
  - apply overlay_step_other in Hw; [| simpl; congruence].
    split; [intros [H1 | H1]; congruence |].
    apply key_in_iff. eauto.
Qed.

Lemma overlay_put (tx : Transaction) (k v : bytes) :
  buffer_lookup (buffer tx) k = Some (Put v) ->
  forall L acc v', In (k, v') (fold_left (overlay_step tx) L acc) ->
  (In k (map fst L) /\ v' = v) \/ (~ In k (map fst L) /\ In (k, v') acc).
Proof.
  intros Hk. induction L as [| e t IH]; intros acc v' H; simpl in *; [auto |].
  destruct (IH _ _ H) as [[H1 H2] | [H1 H2]]; [auto |].
  destruct (list_eq_dec Byte.byte_eq_dec (fst e) k) as [He | He].
  - left. split; [auto |].
    unfold overlay_step in H2. rewrite He, Hk in H2.
    apply kv_put_In in H2 as [H2 | [_ H2]]; [congruence | simpl in H2; congruence].
  - right. split; [intros [H3 | H3]; congruence |].
    apply overlay_step_other in H2; [exact H2 | simpl; congruence].
Qed.

Lemma in_buffered_in_range (tx : Transaction) (r : BoundRange) (k : bytes) (m : Mutation) :
  buffer_lookup (buffer tx) k = Some m -> in_range r k = true ->
  In k (map fst (buffered_in_range tx r)).
Proof.
  intros Hl Hr. apply buffer_lookup_In in Hl.
  apply in_map_iff. exists (k, m). split; [reflexivity |].
  apply filter_In. auto.
Qed.

(* ------------------------------------------------------------------ *)
(** ** The mutation buffer *)

Lemma buffer_lookup_app_absent (b l : list (bytes * Mutation)) (k : bytes) :
  existsb (fun e => bytes_eqb k (fst e)) b = false ->
  buffer_lookup (b ++ l) k = buffer_lookup l k.
Proof.
  induction b as [| [k' m'] t IH]; simpl; [auto |].
  intros H. apply orb_false_iff in H as [H1 H2]. rewrite H1. auto.
Qed.

Lemma buffer_lookup_map_present (b : list (bytes * Mutation)) (k : bytes) (m : Mutation) :
  existsb (fun e => bytes_eqb k (fst e)) b = true ->
  buffer_lookup (map (fun e => if bytes_eqb k (fst e) then (fst e, m) else e) b) k = Some m.
Proof.
  induction b as [| [k' m'] t IH]; simpl; [discriminate |].
  destruct (bytes_eqb k k') eqn:E; simpl.
  - rewrite E. auto.
  - rewrite E. auto.
Qed.

Lemma buffer_lookup_insert (b : list (bytes * Mutation)) (k : bytes) (m : Mutation) :
  buffer_lookup (buffer_insert b k m) k = Some m.
Proof.
  unfold buffer_insert. destruct (existsb _ b) eqn:E.
  - apply buffer_lookup_map_present, E.
  - rewrite buffer_lookup_app_absent by exact E. simpl.
    rewrite (proj2 (bytes_eqb_spec k k) eq_refl). reflexivity.
Qed.

(* ------------------------------------------------------------------ *)
(** ** Claims *)

(** C1: read-your-own-writes. In a transaction that has not committed,
    [transaction_put(k, v)] succeeds and a following [transaction_get(k)]
    returns [is_none = false] with value [v]; a key without a buffered
    entry is read from the backend at the transaction's start timestamp,
    and a key absent there as well yields [is_none = true] with an empty
    value. *)
Theorem transaction_get_after_put (be : Backend) (tx : Transaction) (k v : bytes)
    (Hactive : status tx = Active) :
  snd (transaction_put tx k v) = Ok tt /\
  transaction_get be (fst (transaction_put tx k v)) k =
    Ok {| is_none := false; value := v |} /\
  (forall k', buffer_lookup (buffer tx) k' = None ->
     transaction_get be tx k' =
       match be_get be (start_ts tx) k' with
       | Err e => Err e
       | Ok (Some w) => Ok {| is_none := false; value := w |}
       | Ok None => Ok {| is_none := true; value := [] |}
       end).
Proof.
  unfold transaction_put, tx_put, transaction_get, tx_get. rewrite Hactive. simpl.
  split; [reflexivity |]. split.
  - rewrite buffer_lookup_insert, Hactive. reflexivity.
  - intros k' Hk'. rewrite Hk'. reflexivity.
Qed.

Lemma transaction_get_after_put_witness :
  transaction_get demo_backend (fst (transaction_put demo_tx [x07] [x09])) [x07] =
    Ok {| is_none := false; value := [x09] |}.
Proof.
  exact (proj1 (proj2 (transaction_get_after_put demo_backend demo_tx [x07] [x09] eq_refl))).
Defined.

(** C2: with a non-empty buffer whose first key (in insertion order) is
    [k0], [transaction_prewrite_primary] prewrites [k0] when the caller
    passes no key (the empty string) and the caller's key otherwise; on
    success it returns that key together with the version of the
    transaction's start timestamp. *)
Theorem transaction_prewrite_primary_selects (be : Backend) (tx : Transaction)
    (primary_key k0 : bytes) (m0 : Mutation) (rest : list (bytes * Mutation)) (v : Z)
    (Hactive : status tx = Active) (Hbuf : buffer tx = (k0, m0) :: rest)
    (Hv : version (start_ts tx) = Ret v)
    (Hok : be_prewrite_primary be (start_ts tx)
             (if cxx_is_empty primary_key then k0 else primary_key)
             (buffer_lookup (buffer tx)
                (if cxx_is_empty primary_key then k0 else primary_key)) = Ok tt) :
  transaction_prewrite_primary be tx primary_key =
    Ret (with_status tx Prewriting,
         Ok {| pr_key := if cxx_is_empty primary_key then k0 else primary_key;
               pr_version := v |}).
Proof.
  unfold transaction_prewrite_primary, tx_prewrite_primary, primary_key_arg.
  rewrite Hactive.
  destruct (cxx_is_empty primary_key) eqn:E.
  - rewrite Hbuf in *. cbn [option_map hd_error fst]. rewrite Hok.
    cbn [run_bind]. rewrite Hv. reflexivity.
  - rewrite Hok. cbn [run_bind]. rewrite Hv. reflexivity.
Qed.

Lemma transaction_prewrite_primary_selects_witness :
  transaction_prewrite_primary demo_backend demo_tx [] =
    Ret (with_status demo_tx Prewriting, Ok {| pr_key := [x02]; pr_version := 100 |}).
Proof.
  exact (transaction_prewrite_primary_selects demo_backend demo_tx [] [x02] (Put [x63])
           [([x03], Del); ([x04], Put [x2c])] 100 eq_refl eq_refl eq_refl eq_refl).
Defined.

(** C3: [transaction_commit_secondary] returns [()] to the caller for
    every commit timestamp and every backend outcome: the backend's
    result is dropped and only the committed transaction remains. *)
Theorem transaction_commit_secondary_no_error (be : Backend) (tx : Transaction) (commit_ts : Z) :
  transaction_commit_secondary be tx commit_ts = (with_status tx Committed, tt).
Proof. reflexivity. Qed.

(** C4: for every u32 retry limit [r], a transaction from
    [transaction_client_begin_optimistic_with_option(r)] is optimistic and
    its lock-conflict retry policy is [no_jitter_backoff(2, 500, r)]:
    no jitter, delays [min(500, 2 * 2^i)] for the attempts [i < r] and no
    further attempt; the region (network) retry policy stays the
    default one. *)
Theorem begin_optimistic_with_option_backoff (be : Backend) (r : Z) (tx : Transaction)
    (Hr : is_u32 r)
    (Hbegin : transaction_client_begin_optimistic_with_option be r = Ok tx) :
  tx_kind (options tx) = Optimistic /\
  lock_backoff (retry_options (options tx)) = no_jitter_backoff 2 500 r /\
  kind (lock_backoff (retry_options (options tx))) = NoJitter /\
  region_backoff (retry_options (options tx)) = region_backoff default_optimistic /\
  (forall fuel, (Z.to_nat r <= fuel)%nat ->
     delay_schedule fuel (lock_backoff (retry_options (options tx))) =
     map (fun i => Z.min 500 (2 * 2 ^ Z.of_nat i)) (seq 0 (Z.to_nat r))).
Proof.
  unfold transaction_client_begin_optimistic_with_option in Hbegin.
  destruct (be_current_timestamp be) as [ts |]; [| discriminate].
  inversion Hbegin; subst; clear Hbegin. cbn.
  split; [reflexivity |]. split; [reflexivity |]. split; [reflexivity |].
  split; [reflexivity |].
  intros fuel Hf. unfold no_jitter_backoff.
  unfold is_u32 in Hr.
  replace r with (0 + Z.of_nat (Z.to_nat r)) at 1 by lia.
  apply delay_schedule_no_jitter. exact Hf.
Qed.

Lemma begin_optimistic_with_option_backoff_witness :
  exists tx, transaction_client_begin_optimistic_with_option demo_backend 3 = Ok tx /\
  delay_schedule 3%nat (lock_backoff (retry_options (options tx))) = [2; 4; 8].
Proof.
  eexists. split; [reflexivity |].
  match goal with |- delay_schedule _ (lock_backoff (retry_options (options ?t))) = _ =>
    rewrite (proj2 (proj2 (proj2 (proj2 (begin_optimistic_with_option_backoff demo_backend 3 t
               ltac:(unfold is_u32; lia) eq_refl)))) 3%nat (le_n 3%nat)) end.
  reflexivity.
Defined.

(** C5: [transaction_batch_get_for_update] panics ([unimplemented!]) for
    every transaction and key list: it never returns a result. *)
Theorem transaction_batch_get_for_update_fails (tx : Transaction) (keys : list bytes) :
  transaction_batch_get_for_update tx keys = Panic NOT_IMPLEMENTED_MSG /\
  (forall res, transaction_batch_get_for_update tx keys <> Ret res).
Proof. split; [reflexivity | intros res H; discriminate H]. Qed.

Lemma transaction_batch_get_for_update_fails_witness :
  transaction_batch_get_for_update demo_tx [[x01]; [x02]] <> Ret (Ok []).
Proof. exact (proj2 (transaction_batch_get_for_update_fails demo_tx [[x01]; [x02]]) (Ok [])). Defined.

(** C6: [to_bound_range] maps [Included], [Excluded] and [Unbounded] on
    each side to the corresponding bound over the given key bytes, and
    panics on any other [Bound] value on either side. *)
Theorem to_bound_range_tags :
  (forall start end_ sb eb lo hi,
     tag_of sb start lo -> tag_of eb end_ hi ->
     to_bound_range start sb end_ eb = Ret {| from_bound := lo; to_bound := hi |}) /\
  (forall start end_ sb eb,
     bound_valid sb = false \/ bound_valid eb = false ->
     to_bound_range start sb end_ eb = Panic UNEXPECTED_BOUND_MSG).
Proof.
  split.
  - intros start end_ sb eb lo hi Hs He.
    destruct Hs; destruct He; reflexivity.
  - intros start end_ [s] [e] H. unfold bound_valid in H. cbn [repr] in H.
    unfold to_bound_range, convert_bound. cbn [repr Bound_Included Bound_Excluded Bound_Unbounded].
    destruct H as [H | H];
    repeat match goal with
           | H : (?a || ?b) = false |- _ => apply orb_false_iff in H as [? ?]
           end;
    repeat match goal with
           | H : (?x =? ?y) = false |- _ => rewrite H; clear H
           end;
    try reflexivity.
    destruct (s =? 0); [| destruct (s =? 1); [| destruct (s =? 2)]]; reflexivity.
Qed.

Lemma to_bound_range_tags_witness :
  to_bound_range [x01] Bound_Excluded [x05] Bound_Included =
    Ret {| from_bound := Excluded [x01]; to_bound := Included [x05] |} /\
  to_bound_range [x01] (mkBound 7) [x05] Bound_Included = Panic UNEXPECTED_BOUND_MSG.
Proof.
  split.
  - exact (proj1 to_bound_range_tags _ _ _ _ _ _ (tag_excluded _) (tag_included _)).
  - exact (proj2 to_bound_range_tags [x01] [x05] (mkBound 7) Bound_Included
             (or_introl eq_refl)).
Defined.

(** C7: for a backend whose range reads stay inside the range, a
    successful [transaction_scan] with limit [L] returns at most [L]
    pairs, in strictly ascending key order; no key with a buffered delete
    appears; a key with a buffered put carries the buffered value; and
    [L = 0] gives the empty sequence. *)
Theorem transaction_scan_spec (be : Backend)
    (Hin : forall ts r lim pairs, be_scan be ts r lim = Ok pairs ->
           forall p, In p pairs -> in_range r (fst p) = true)
    (tx : Transaction) (start end_ : bytes) (sb eb : Bound) (limit : Z)
    (res : list KvPair)
    (Hscan : transaction_scan be tx start sb end_ eb limit = Ret (Ok res)) :
  (List.length res <= Z.to_nat limit)%nat /\
  Sorted (fun a b => bytes_lt (kv_key a) (kv_key b)) res /\
  (forall k, buffer_lookup (buffer tx) k = Some Del -> ~ In k (map kv_key res)) /\
  (forall k v v', buffer_lookup (buffer tx) k = Some (Put v) ->
     In {| kv_key := k; kv_value := v' |} res -> v' = v) /\
  (limit = 0 -> res = []).
Proof.
  unfold transaction_scan in Hscan.
  destruct (to_bound_range start sb end_ eb) as [r |]; cbn [run_bind] in Hscan;
    [| discriminate].
  destruct (tx_scan be tx r limit) as [l |] eqn:Es; inversion Hscan; subst; clear Hscan.
  unfold tx_scan in Es. destruct (is_terminal (status tx)); [discriminate |].
  destruct (be_scan be (start_ts tx) r _) as [pairs |] eqn:Eb; [| discriminate].
  inversion Es; subst; clear Es.
  set (muts := buffered_in_range tx r).
  set (merged := fold_left (overlay_step tx) muts (kv_of_list pairs)).
  assert (Hsorted : StronglySorted key_lt merged).
  { apply overlay_sorted, kv_of_list_sorted. }
  (* every key of the merged result comes from the backend or the buffer *)
  assert (Hkeys : forall x, In x merged -> in_range r (fst x) = true).
  { intros x Hx. apply overlay_In in Hx as [Hx | Hx].
    - apply kv_of_list_In in Hx. exact (Hin _ _ _ _ Eb _ Hx).
    - apply in_map_iff in Hx as [e [He Hm]].
      unfold muts, buffered_in_range in Hm. apply filter_In in Hm as [_ Hm].
      congruence. }
  split; [| split; [| split; [| split]]].
  - rewrite length_map, length_firstn. lia.
  - apply StronglySorted_Sorted.
    apply (sorted_map key_lt); [intros a b Hab; exact Hab |].
    apply firstn_sorted, Hsorted.
  - intros k Hk Hres.
    apply in_map_iff in Hres as [p [Hp Hres]].
    apply in_map_iff in Hres as [x [Hx Hxin]]. subst p. cbn [kv_key] in Hp.
    apply in_firstn in Hxin.
    assert (Hki : key_in k merged).
    { apply in_map_iff. exists x. auto. }
    destruct (overlay_del tx k Hk muts _ Hki) as [Hnot Hacc].
    apply key_in_iff in Hacc as [w Hw].
    apply kv_of_list_In in Hw.
    pose proof (Hin _ _ _ _ Eb _ Hw) as Hr. cbn [fst] in Hr.
    exact (Hnot (in_buffered_in_range tx r k Del Hk Hr)).
  - intros k v v' Hk Hres.
    apply in_map_iff in Hres as [x [Hx Hxin]].
    destruct x as [a b]. cbn [fst snd] in Hx. inversion Hx; subst a b; clear Hx.
    apply in_firstn in Hxin.
    destruct (overlay_put tx k v Hk muts _ v' Hxin) as [[_ Hv] | [Hnot Hacc]]; [exact Hv |].
    apply kv_of_list_In in Hacc.
    pose proof (Hin _ _ _ _ Eb _ Hacc) as Hr. cbn [fst] in Hr.
    exfalso. exact (Hnot (in_buffered_in_range tx r k (Put v) Hk Hr)).
  - intros ->. reflexivity.
Qed.

Lemma demo_backend_in_range :
  forall ts r lim pairs, be_scan demo_backend ts r lim = Ok pairs ->
  forall p, In p pairs -> in_range r (fst p) = true.
Proof.
  intros ts r lim pairs H p Hp. unfold demo_backend in H. cbn [be_scan] in H.
  injection H as <-.
  exact (proj2 (proj1 (filter_In (fun e => in_range r (fst e)) p demo_store) Hp)).
Qed.

Lemma transaction_scan_spec_witness :
  transaction_scan demo_backend demo_tx [x01] Bound_Excluded [x05] Bound_Included 2 =
    Ret (Ok [{| kv_key := [x02]; kv_value := [x63] |};
             {| kv_key := [x04]; kv_value := [x2c] |}]) /\
  (List.length [{| kv_key := [x02]; kv_value := [x63] |};
                {| kv_key := [x04]; kv_value := [x2c] |}] <= Z.to_nat 2)%nat.
Proof.
  assert (E : transaction_scan demo_backend demo_tx [x01] Bound_Excluded [x05] Bound_Included 2 =
    Ret (Ok [{| kv_key := [x02]; kv_value := [x63] |};
             {| kv_key := [x04]; kv_value := [x2c] |}])) by reflexivity.
  split; [exact E |].
  exact (proj1 (transaction_scan_spec demo_backend demo_backend_in_range demo_tx
                  [x01] [x05] Bound_Excluded Bound_Included 2 _ E)).
Defined.

(** C8 (as amended): for a u64 safepoint [s] below 2^63, [client_gc(s)]
    returns [Err BackendError] when the safepoint service is unreachable,
    and otherwise [Ok b] where [b] is true exactly when [s] increases the
    previous safepoint (which then becomes [s]) and false when it does
    not (the safepoint is left as it was). For [s >= 2^63] the call
    panics in the conversion of the safepoint to a version. *)
Theorem client_gc_result (reachable : bool) (pd : Pd) (s : Z) (Hs : is_u64 s) :
  (s < two63 ->
     (reachable = false -> client_gc reachable pd s = Ret (pd, Err BackendError)) /\
     (reachable = true ->
        exists pd' b, client_gc reachable pd s = Ret (pd', Ok b) /\
          (b = true <-> gc_safe_point pd < s) /\
          (b = true -> gc_safe_point pd' = s) /\
          (b = false -> pd' = pd))) /\
  (two63 <= s -> client_gc reachable pd s = Panic VERSION_OVERFLOW_MSG).
Proof.
  unfold client_gc, gc. rewrite version_from_version by exact Hs.
  split.
  - intros Hlt. replace (s <? two63) with true by (symmetry; apply Z.ltb_lt; exact Hlt).
    cbn [run_bind]. split.
    + intros ->. reflexivity.
    + intros ->. cbn [negb].
      destruct (Z.ltb_spec (gc_safe_point pd) s) as [Hp | Hp]; cbn [run_bind fst snd].
      * exists (mkPd s), true. repeat split; auto; discriminate.
      * exists pd, false. repeat split; auto; try discriminate; lia.
  - intros Hge. replace (s <? two63) with false by (symmetry; apply Z.ltb_ge; exact Hge).
    reflexivity.
Qed.

Lemma client_gc_result_witness :
  client_gc true (mkPd 10) 20 = Ret (mkPd 20, Ok true) /\
  client_gc true (mkPd 10) two63 = Panic VERSION_OVERFLOW_MSG.
Proof.
  split.
  - destruct (proj2 (proj1 (client_gc_result true (mkPd 10) 20
                              ltac:(unfold is_u64, two64; lia))
                         ltac:(unfold two63; lia)) eq_refl)
      as [pd' [b [E [Hb [Hs _]]]]].
    rewrite E. assert (b = true) as -> by (apply Hb; simpl; lia).
    destruct pd' as [g]. cbn [gc_safe_point] in Hs. rewrite (Hs eq_refl). reflexivity.
  - exact (proj2 (client_gc_result true (mkPd 10) two63
                    ltac:(unfold is_u64, two63, two64; lia)) (Z.le_refl _)).
Defined.

(** C8: counterexample to the claim as stated: at the u64 safepoint 2^63
    [client_gc] returns neither a boolean nor an error, it panics. *)
Lemma client_gc_overflow_counterexample :
  ~ (exists pd' r, client_gc true (mkPd 0) two63 = Ret (pd', r)).
Proof. intros [pd' [r H]]. vm_compute in H. discriminate H. Qed.

(** C9: the empty [primary_key] argument of
    [transaction_prewrite_primary] means auto-select ([None]); a
    non-empty argument is passed on as the explicit primary; so the empty
    key can never be designated explicitly. *)
Theorem primary_key_arg_spec (primary_key : bytes) :
  (primary_key = [] -> primary_key_arg primary_key = None) /\
  (primary_key <> [] -> primary_key_arg primary_key = Some primary_key) /\
  primary_key_arg primary_key <> Some [].
Proof.
  unfold primary_key_arg. destruct primary_key as [| b t]; cbn [cxx_is_empty].
  - split; [reflexivity | split; [intros H; contradiction | discriminate]].
  - split; [discriminate | split; [reflexivity | discriminate]].
Qed.

Lemma primary_key_arg_spec_witness :
  primary_key_arg [] = None /\ primary_key_arg [x01] = Some [x01].
Proof.
  split.
  - exact (proj1 (primary_key_arg_spec []) eq_refl).
  - exact (proj1 (proj2 (primary_key_arg_spec [x01])) ltac:(discriminate)).
Defined.

(** C10 (as amended): for every u64 [ts] below 2^63, [from_version ts]
    has [version() = ts], so [snapshot_new_with_timestamp(ts)] anchors
    the snapshot at a timestamp of version [ts];
    [transaction_prewrite_secondary] hands the engine that same
    [from_version ts]; [transaction_commit_secondary] hands it to the
    engine's [commit_secondary], whatever that engine does with it
    (the transaction it leaves is the one the engine returns at
    [from_version ts]); and [client_gc] hands it to [gc], whose
    [version()] gives back [ts], so the safepoint compared and stored is
    [ts] itself. For [ts >= 2^63] the [version()] of [from_version ts]
    panics (overflow guard). *)
Theorem timestamp_version_roundtrip (ts : Z) (Hts : is_u64 ts) :
  (ts < two63 ->
     version (from_version ts) = Ret ts /\
     (exists snap, snapshot_new_with_timestamp ts = Ok snap /\
                   version (snap_ts snap) = Ret ts) /\
     (forall be tx primary_key,
        transaction_prewrite_secondary be tx primary_key ts =
        (fst (tx_prewrite_secondary be tx primary_key (from_version ts)),
         lift_unit (snd (tx_prewrite_secondary be tx primary_key (from_version ts))))) /\
     (forall be tx,
        transaction_commit_secondary be tx ts =
        commit_secondary_bridge (tx_commit_secondary be) tx ts) /\
     (forall commit_secondary tx,
        commit_secondary_bridge commit_secondary tx ts =
        (fst (commit_secondary tx (from_version ts)), tt)) /\
     (forall reachable pd,
        client_gc reachable pd ts =
        (if negb reachable then Ret (pd, Err BackendError)
         else if gc_safe_point pd <? ts then Ret (mkPd ts, Ok true)
         else Ret (pd, Ok false)))) /\
  (two63 <= ts -> version (from_version ts) = Panic VERSION_OVERFLOW_MSG).
Proof.
  rewrite version_from_version by exact Hts. split.
  - intros Hlt. replace (ts <? two63) with true by (symmetry; apply Z.ltb_lt; exact Hlt).
    split; [reflexivity |]. split.
    + eexists. split; [reflexivity |]. cbn [snap_ts client_snapshot].
      rewrite version_from_version by exact Hts.
      replace (ts <? two63) with true by (symmetry; apply Z.ltb_lt; exact Hlt).
      reflexivity.
    + split; [intros be tx primary_key; unfold transaction_prewrite_secondary |].
      * destruct (tx_prewrite_secondary be tx primary_key (from_version ts)). reflexivity.
      * split; [intros be' tx'; reflexivity |]. split.
        -- intros cs tx'. unfold commit_secondary_bridge.
           destruct (cs tx' (from_version ts)). reflexivity.
        -- intros reachable pd. unfold client_gc, gc.
           rewrite version_from_version by exact Hts.
           replace (ts <? two63) with true by (symmetry; apply Z.ltb_lt; exact Hlt).
           cbn [run_bind]. destruct reachable; cbn [negb]; [| reflexivity].
           destruct (gc_safe_point pd <? ts); reflexivity.
  - intros Hge. replace (ts <? two63) with false by (symmetry; apply Z.ltb_ge; exact Hge).
    reflexivity.
Qed.

Lemma timestamp_version_roundtrip_witness :
  version (from_version 441162989961052161) = Ret 441162989961052161 /\
  commit_secondary_bridge
    (fun tx t => ({| start_ts := t; options := options tx; buffer := buffer tx;
                     status := Committed |}, Ok tt))
    demo_tx 441162989961052161 =
  ({| start_ts := from_version 441162989961052161; options := options demo_tx;
      buffer := buffer demo_tx; status := Committed |}, tt).
Proof.
  pose proof (proj1 (timestamp_version_roundtrip 441162989961052161
                       ltac:(unfold is_u64, two64; lia))
                ltac:(unfold two63; lia)) as H.
  split; [exact (proj1 H) |].
  exact (proj1 (proj2 (proj2 (proj2 (proj2 H)))) _ demo_tx).
Defined.

(** C10: counterexample to the claim as stated: the snapshot built for
    the u64 timestamp 2^63 is anchored at a timestamp whose [version()]
    panics instead of returning 2^63. *)
Lemma snapshot_version_overflow_counterexample :
  exists snap, snapshot_new_with_timestamp two63 = Ok snap /\
               version (snap_ts snap) = Panic VERSION_OVERFLOW_MSG /\
               version (snap_ts snap) <> Ret two63.
Proof.
  eexists. split; [reflexivity |]. split; [vm_compute; reflexivity |].
  vm_compute. discriminate.
Qed.

(* ================================================================== *)
(** * Further properties of the bridge *)

(* ------------------------------------------------------------------ *)
(** ** Timestamps issued by the placement driver *)

Lemma version_pd (t : Timestamp) :
  pd_timestamp t -> version t = Ret (physical t * 2 ^ 18 + logical t).
Proof.
  intros (Hp & Hl & _). unfold version, PHYSICAL_SHIFT_BITS.
  rewrite Z.shiftl_mul_pow2 by lia.
  change (2 ^ 18) with 262144 in *. change (2 ^ 45) with 35184372088832 in *.
  rewrite (wrap_i64_id (physical t * 262144))
    by (unfold two63; change (2 ^ 63) with 9223372036854775808; lia).
  rewrite wrap_i64_id
    by (unfold two63; change (2 ^ 63) with 9223372036854775808; lia).
  unfold i64_to_u64_expect. destruct (Z.ltb_spec (physical t * 262144 + logical t) 0).
  - lia.
  - reflexivity.
Qed.

(** X1: a placement-driver timestamp survives the trip through the
    bridge's u64: its [version()] is [physical * 2^18 + logical], below
    2^63, and [from_version] of that number gives the timestamp back. *)
Theorem pd_timestamp_roundtrip (t : Timestamp) (Ht : pd_timestamp t) :
  version t = Ret (physical t * 2 ^ 18 + logical t) /\
  0 <= physical t * 2 ^ 18 + logical t < two63 /\
  from_version (physical t * 2 ^ 18 + logical t) = t.
Proof.
  pose proof (version_pd t Ht) as Hv.
  destruct t as [p l sfx]. destruct Ht as (Hp & Hl & Hs). cbn [physical logical suffix_bits] in *.
  subst sfx. split; [exact Hv |].
  assert (Hr : 0 <= p * 2 ^ 18 + l < two63).
  { unfold two63. change (2 ^ 18) with 262144 in *. change (2 ^ 45) with 35184372088832 in *.
    change (2 ^ 63) with 9223372036854775808. lia. }
  split; [exact Hr |].
  unfold from_version, u64_as_i64.
  replace (p * 2 ^ 18 + l <? two63) with true by (symmetry; apply Z.ltb_lt; lia).
  rewrite LOGICAL_MASK_ones, Z.land_ones, Z.shiftr_div_pow2 by (unfold PHYSICAL_SHIFT_BITS; lia).
  unfold PHYSICAL_SHIFT_BITS.
  f_equal.
  - rewrite Z.add_comm, Z.div_add by lia. rewrite Z.div_small by lia. lia.
  - rewrite Z.add_comm, Z.mod_add by lia. apply Z.mod_small. lia.
Qed.

Lemma pd_timestamp_roundtrip_witness :
  from_version (physical (mkTimestamp 1700000000000 5 0) * 2 ^ 18 +
                logical (mkTimestamp 1700000000000 5 0)) = mkTimestamp 1700000000000 5 0.
Proof.
  exact (proj2 (proj2 (pd_timestamp_roundtrip (mkTimestamp 1700000000000 5 0)
                         ltac:(unfold pd_timestamp; cbn; lia)))).
Defined.

(** X2: every u64 below 2^63 that crosses the bridge ([from_version]
    in [snapshot_new_with_timestamp], [transaction_prewrite_secondary],
    [transaction_commit_secondary], [client_gc]) decodes to a
    placement-driver-shaped timestamp. *)
Theorem from_version_pd (v : Z) (Hv : 0 <= v < two63) : pd_timestamp (from_version v).
Proof.
  unfold pd_timestamp, from_version, u64_as_i64.
  replace (v <? two63) with true by (symmetry; apply Z.ltb_lt; lia).
  cbn [physical logical suffix_bits].
  rewrite LOGICAL_MASK_ones, Z.land_ones, Z.shiftr_div_pow2 by (unfold PHYSICAL_SHIFT_BITS; lia).
  unfold PHYSICAL_SHIFT_BITS, two63 in *.
  split; [| split; [apply Z.mod_pos_bound; lia | reflexivity]].
  split; [apply Z.div_pos; lia |].
  apply Z.div_lt_upper_bound; [lia |].
  change (2 ^ 18 * 2 ^ 45) with (2 ^ 63). lia.
Qed.

Lemma from_version_pd_witness : pd_timestamp (from_version 441162989961052161).
Proof. exact (from_version_pd 441162989961052161 ltac:(unfold two63; lia)). Defined.

(** X3: on placement-driver timestamps the u64 versions the bridge
    hands out compare like the timestamps: [t1] is before [t2] in
    (physical, logical) order exactly when its version is smaller. *)
Theorem version_order (t1 t2 : Timestamp) (H1 : pd_timestamp t1) (H2 : pd_timestamp t2) :
  exists v1 v2, version t1 = Ret v1 /\ version t2 = Ret v2 /\ (ts_lt t1 t2 <-> v1 < v2).
Proof.
  exists (physical t1 * 2 ^ 18 + logical t1), (physical t2 * 2 ^ 18 + logical t2).
  split; [apply version_pd, H1 |]. split; [apply version_pd, H2 |].
  destruct H1 as (Hp1 & Hl1 & _). destruct H2 as (Hp2 & Hl2 & _).
  unfold ts_lt. change (2 ^ 18) with 262144 in *. split.
  - intros [H | [H H']]; [nia | lia].
  - intros H. destruct (Z.lt_trichotomy (physical t1) (physical t2)) as [Hc | [Hc | Hc]].
    + left. exact Hc.
    + right. split; [exact Hc | lia].
    + exfalso. nia.
Qed.

Lemma version_order_witness :
  exists v1 v2, version (mkTimestamp 7 9 0) = Ret v1 /\ version (mkTimestamp 8 0 0) = Ret v2 /\
    (ts_lt (mkTimestamp 7 9 0) (mkTimestamp 8 0 0) <-> v1 < v2).
Proof.
  exact (version_order (mkTimestamp 7 9 0) (mkTimestamp 8 0 0)
           ltac:(unfold pd_timestamp; cbn; lia) ltac:(unfold pd_timestamp; cbn; lia)).
Defined.

(* ------------------------------------------------------------------ *)
(** ** Timestamps handed from one bridge call to the next *)

(** X4: when the placement driver issues a timestamp [t], the u64 that
    [current_timestamp] returns, given to [snapshot_new_with_timestamp],
    builds the same snapshot as [snapshot_new] does. *)
Theorem current_timestamp_then_snapshot (be : Backend) (t : Timestamp)
    (Hts : be_current_timestamp be = Ok t) (Hpd : pd_timestamp t) :
  exists v, current_timestamp be = Ret (Ok v) /\
            snapshot_new_with_timestamp v = snapshot_new be.
Proof.
  exists (physical t * 2 ^ 18 + logical t).
  unfold current_timestamp, snapshot_new. rewrite Hts.
  rewrite (version_pd t Hpd). split; [reflexivity |].
  unfold snapshot_new_with_timestamp.
  rewrite (proj2 (proj2 (pd_timestamp_roundtrip t Hpd))). reflexivity.
Qed.

Lemma current_timestamp_then_snapshot_witness :
  exists v, current_timestamp demo_backend = Ret (Ok v) /\
            snapshot_new_with_timestamp v = snapshot_new demo_backend.
Proof.
  exact (current_timestamp_then_snapshot demo_backend (from_version 100) eq_refl
           (from_version_pd 100 ltac:(unfold two63; lia))).
Defined.

Lemma tx_prewrite_primary_ok (be : Backend) (tx tx1 : Transaction) (o : option bytes)
    (key : bytes) (ts : Timestamp) :
  tx_prewrite_primary be tx o = (tx1, Ok (key, ts)) ->
  ts = start_ts tx /\ tx1 = with_status tx Prewriting.
Proof.
  unfold tx_prewrite_primary.
  destruct (status tx); try discriminate.
  destruct (match o with Some k => Some k | None => option_map fst (hd_error (buffer tx)) end)
    as [p |]; [| discriminate].
  destruct (be_prewrite_primary be (start_ts tx) p (buffer_lookup (buffer tx) p));
    [| discriminate].
  intros H. inversion H. auto.
Qed.

(** X5: the version that a successful [transaction_prewrite_primary]
    returns, passed on to [transaction_prewrite_secondary] as the
    C++ side does, makes the engine prewrite the secondaries at exactly
    the transaction's start timestamp (a placement-driver timestamp). *)
Theorem prewrite_primary_then_secondary (be : Backend) (tx tx' : Transaction)
    (primary_key : bytes) (res : PrewriteResult)
    (Hpd : pd_timestamp (start_ts tx))
    (H : transaction_prewrite_primary be tx primary_key = Ret (tx', Ok res)) :
  start_ts tx' = start_ts tx /\
  forall pk,
    transaction_prewrite_secondary be tx' pk (pr_version res) =
    (fst (tx_prewrite_secondary be tx' pk (start_ts tx)),
     lift_unit (snd (tx_prewrite_secondary be tx' pk (start_ts tx)))).
Proof.
  unfold transaction_prewrite_primary in H.
  destruct (tx_prewrite_primary be tx (primary_key_arg primary_key)) as [tx1 [[key ts] | e]] eqn:E;
    [| discriminate].
  destruct (tx_prewrite_primary_ok _ _ _ _ _ _ E) as [-> ->].
  rewrite (version_pd _ Hpd) in H. cbn [run_bind] in H. inversion H; subst; clear H.
  split; [reflexivity |].
  intros pk. unfold transaction_prewrite_secondary. cbn [pr_version].
  change (Z.pow_pos 2 18) with (2 ^ 18).
  rewrite (proj2 (proj2 (pd_timestamp_roundtrip _ Hpd))).
  destruct (tx_prewrite_secondary be (with_status tx Prewriting) pk (start_ts tx)). reflexivity.
Qed.

Lemma prewrite_primary_then_secondary_witness :
  exists tx' res, transaction_prewrite_primary demo_backend demo_tx [] = Ret (tx', Ok res) /\
    start_ts tx' = start_ts demo_tx.
Proof.
  do 2 eexists. split; [reflexivity |].
  match goal with |- start_ts ?t = _ =>
    exact (proj1 (prewrite_primary_then_secondary demo_backend demo_tx t [] _
                    (from_version_pd 100 ltac:(unfold two63; lia)) eq_refl)) end.
Defined.

(** X6: [transaction_commit_primary] returns the version of the commit
    timestamp [t] the engine reports, and that version, passed to
    [transaction_commit_secondary], reaches the engine's
    [commit_secondary] as [t] itself: [from_version] gives [t] back, and
    whatever the engine does with the timestamp, the transaction the
    bridge leaves is the one the engine returns at [t]. *)
Theorem commit_primary_then_secondary
    (commit_primary : Transaction -> Transaction * result Timestamp)
    (tx tx' : Transaction) (t : Timestamp)
    (Hc : commit_primary tx = (tx', Ok t)) (Hpd : pd_timestamp t) :
  transaction_commit_primary commit_primary tx = Ret (tx', Ok (physical t * 2 ^ 18 + logical t)) /\
  from_version (physical t * 2 ^ 18 + logical t) = t /\
  (forall commit_secondary,
     commit_secondary_bridge commit_secondary tx' (physical t * 2 ^ 18 + logical t) =
     (fst (commit_secondary tx' t), tt)).
Proof.
  unfold transaction_commit_primary. rewrite Hc.
  rewrite (version_pd t Hpd). split; [reflexivity |].
  pose proof (proj2 (proj2 (pd_timestamp_roundtrip t Hpd))) as Hr.
  split; [exact Hr |].
  intros cs. unfold commit_secondary_bridge. rewrite Hr.
  destruct (cs tx' t). reflexivity.
Qed.

(** The engine records the commit timestamp it is given: the bridge
    delivers the one [commit_primary] reported. *)
Lemma commit_primary_then_secondary_witness :
  transaction_commit_primary (fun tx => (tx, Ok (mkTimestamp 2 3 0))) demo_tx =
    Ret (demo_tx, Ok (2 * 2 ^ 18 + 3)) /\
  commit_secondary_bridge
    (fun tx t => ({| start_ts := t; options := options tx; buffer := buffer tx;
                     status := Committed |}, Ok tt))
    demo_tx (2 * 2 ^ 18 + 3) =
  ({| start_ts := mkTimestamp 2 3 0; options := options demo_tx;
      buffer := buffer demo_tx; status := Committed |}, tt).
Proof.
  pose proof (commit_primary_then_secondary (fun tx => (tx, Ok (mkTimestamp 2 3 0)))
                demo_tx demo_tx (mkTimestamp 2 3 0) eq_refl
                ltac:(unfold pd_timestamp; cbn; lia)) as H.
  split; [exact (proj1 H) |].
  exact (proj2 (proj2 H) _).
Defined.

(* ------------------------------------------------------------------ *)
(** ** Scans with an invalid bound *)

Lemma to_bound_range_invalid (start end_ : bytes) (sb eb : Bound) :
  bound_valid sb = false \/ bound_valid eb = false ->
  to_bound_range start sb end_ eb = Panic UNEXPECTED_BOUND_MSG.
Proof.
  destruct sb as [s], eb as [e]. unfold bound_valid, to_bound_range, convert_bound.
  cbn [repr Bound_Included Bound_Excluded Bound_Unbounded].
  intros [H | H]; rewrite !orb_false_iff in H; destruct H as [[H0 H1] H2];
    rewrite ?H0, ?H1, ?H2; [reflexivity |].
  destruct (s =? 0); [| destruct (s =? 1); [| destruct (s =? 2)]]; reflexivity.
Qed.

(** X7: the four scan wrappers ([transaction_scan],
    [transaction_scan_keys], [snapshot_scan], [snapshot_scan_keys])
    convert the bounds before any call into the engine, so a [Bound]
    value outside the three tags on either side makes each of them panic
    with "unexpected bound", whatever the transaction or snapshot, the
    engine's behaviour and the limit. *)
Theorem scans_panic_on_invalid_bound (be : Backend)
    (tx_scan_keys : Transaction -> BoundRange -> Z -> result (list bytes))
    (snap_scan : Snapshot -> BoundRange -> Z -> result (list (bytes * bytes)))
    (snap_scan_keys : Snapshot -> BoundRange -> Z -> result (list bytes))
    (tx : Transaction) (s : Snapshot) (start end_ : bytes) (sb eb : Bound) (limit : Z)
    (Hinv : bound_valid sb = false \/ bound_valid eb = false) :
  transaction_scan be tx start sb end_ eb limit = Panic UNEXPECTED_BOUND_MSG /\
  transaction_scan_keys tx_scan_keys tx start sb end_ eb limit = Panic UNEXPECTED_BOUND_MSG /\
  snapshot_scan snap_scan s start sb end_ eb limit = Panic UNEXPECTED_BOUND_MSG /\
  snapshot_scan_keys snap_scan_keys s start sb end_ eb limit = Panic UNEXPECTED_BOUND_MSG.
Proof.
  unfold transaction_scan, transaction_scan_keys, snapshot_scan, snapshot_scan_keys.
  rewrite (to_bound_range_invalid start end_ sb eb Hinv).
  repeat split.
Qed.

Lemma scans_panic_on_invalid_bound_witness :
  snapshot_scan (fun _ _ _ => Ok demo_store) (client_snapshot (from_version 100) new_optimistic)
    [x01] Bound_Included [x05] (mkBound 3) 10 = Panic UNEXPECTED_BOUND_MSG.
Proof.
  exact (proj1 (proj2 (proj2 (scans_panic_on_invalid_bound demo_backend
           (fun _ _ _ => Ok []) (fun _ _ _ => Ok demo_store) (fun _ _ _ => Ok [])
           demo_tx (client_snapshot (from_version 100) new_optimistic)
           [x01] [x05] Bound_Included (mkBound 3) 10 (or_intror eq_refl))))).
Defined.

(* ------------------------------------------------------------------ *)
(** ** The [OptionalValue] encoding *)

Lemma optional_value_of_roundtrip (r : result (option bytes)) :
  result_option_of (optional_value_of r) = r.
Proof. destruct r as [[v |] | e]; reflexivity. Qed.

Lemma optional_value_of_none (r : result (option bytes)) (o : OptionalValue) :
  optional_value_of r = Ok o -> is_none o = true -> value o = [].
Proof.
  destruct r as [[v |] | e]; cbn; intros H; inversion H; subst; cbn; [discriminate | auto].
Qed.

(** X8: the three point reads ([transaction_get],
    [transaction_get_for_update], [snapshot_get]) encode the engine's
    [Option] losslessly: reading the [OptionalValue] back gives exactly
    the engine's answer (so a present empty value differs from an absent
    key), errors pass through, and [is_none = true] always comes with an
    empty [value]. *)
Theorem point_reads_encode_option (be : Backend)
    (get_for_update : Transaction -> bytes -> Transaction * result (option bytes))
    (snap_get : Snapshot -> bytes -> result (option bytes))
    (tx : Transaction) (s : Snapshot) (key : bytes) :
  result_option_of (transaction_get be tx key) = tx_get be tx key /\
  fst (transaction_get_for_update get_for_update tx key) = fst (get_for_update tx key) /\
  result_option_of (snd (transaction_get_for_update get_for_update tx key)) =
    snd (get_for_update tx key) /\
  result_option_of (snapshot_get snap_get s key) = snap_get s key /\
  (forall o, (transaction_get be tx key = Ok o \/
              snd (transaction_get_for_update get_for_update tx key) = Ok o \/
              snapshot_get snap_get s key = Ok o) ->
             is_none o = true -> value o = []).
Proof.
  assert (Eg : transaction_get be tx key = optional_value_of (tx_get be tx key)).
  { unfold transaction_get, optional_value_of. reflexivity. }
  assert (Ef : transaction_get_for_update get_for_update tx key =
               (fst (get_for_update tx key), optional_value_of (snd (get_for_update tx key)))).
  { unfold transaction_get_for_update. destruct (get_for_update tx key). reflexivity. }
  unfold snapshot_get. rewrite Eg, Ef. cbn [fst snd].
  split; [apply optional_value_of_roundtrip |].
  split; [reflexivity |].
  split; [apply optional_value_of_roundtrip |].
  split; [apply optional_value_of_roundtrip |].
  intros o [H | [H | H]]; exact (optional_value_of_none _ _ H).
Qed.

(** Present-but-empty and absent stay apart. *)
Lemma point_reads_encode_option_witness :
  snapshot_get (fun _ _ => Ok (Some [])) (client_snapshot (from_version 1) new_optimistic) [x01] <>
  snapshot_get (fun _ _ => Ok None) (client_snapshot (from_version 1) new_optimistic) [x01].
Proof.
  intros H.
  pose proof (proj1 (proj2 (proj2 (proj2 (point_reads_encode_option demo_backend
             (fun tx _ => (tx, Ok None)) (fun _ _ => Ok (Some []))
             demo_tx (client_snapshot (from_version 1) new_optimistic) [x01]))))) as H1.
  pose proof (proj1 (proj2 (proj2 (proj2 (point_reads_encode_option demo_backend
             (fun tx _ => (tx, Ok None)) (fun _ _ => Ok None)
             demo_tx (client_snapshot (from_version 1) new_optimistic) [x01]))))) as H2.
  rewrite H in H1. rewrite H1 in H2. discriminate H2.
Defined.

(* ------------------------------------------------------------------ *)
(** ** Log file names *)

Lemma string_append_cancel_l (p s1 s2 : string) :
  (p ++ s1)%string = (p ++ s2)%string -> s1 = s2.
Proof. induction p as [| c p IH]; cbn; [auto | intros H; injection H; auto]. Qed.

Lemma string_length_append (p s : string) :
  String.length (p ++ s) = (String.length p + String.length s)%nat.
Proof. induction p as [| c p IH]; cbn; [reflexivity | rewrite IH; reflexivity]. Qed.

Lemma digit_inj (a b : Z) :
  0 <= a < 10 -> 0 <= b < 10 -> digit a = digit b -> a = b.
Proof.
  intros Ha Hb H. unfold digit in H.
  apply (f_equal Ascii.nat_of_ascii) in H.
  rewrite !Ascii.nat_ascii_embedding in H by lia. lia.
Qed.

Lemma pad2_digits_inj (a b : Z) :
  0 <= a < 100 -> 0 <= b < 100 ->
  digit (a / 10) = digit (b / 10) -> digit (a mod 10) = digit (b mod 10) -> a = b.
Proof.
  intros Ha Hb H1 H2.
  apply digit_inj in H1; [| split; [apply Z.div_pos | apply Z.div_lt_upper_bound]; lia
                           | split; [apply Z.div_pos | apply Z.div_lt_upper_bound]; lia].
  apply digit_inj in H2; [| apply Z.mod_pos_bound; lia | apply Z.mod_pos_bound; lia].
  rewrite (Z.div_mod a 10), (Z.div_mod b 10) by lia. lia.
Qed.

(** X9: [create_slog_logger] opens [log_path] followed by
    "/tikv-client-%Y%m%d%H%M%S.log"; for a local time whose year is in
    0..9999 (the years chrono writes as four plain digits) and whose
    other fields are in chrono's ranges, that file name is 31 characters
    long, and two such distinct local times (to the second) never give
    the same path. *)
Theorem log_file_path_inj (log_path : string) (d1 d2 : DateTime)
    (H1 : dt_in_range d1) (H2 : dt_in_range d2) :
  String.length (log_file_path log_path d1) = (String.length log_path + 31)%nat /\
  (log_file_path log_path d1 = log_file_path log_path d2 -> d1 = d2).
Proof.
  split.
  - unfold log_file_path. rewrite string_length_append. reflexivity.
  - unfold log_file_path. intros H. apply string_append_cancel_l in H.
    destruct d1 as [y1 mo1 da1 h1 mi1 s1], d2 as [y2 mo2 da2 h2 mi2 s2].
    unfold dt_in_range in H1, H2; cbn [dt_year dt_month dt_day dt_hour dt_minute dt_second] in *.
    unfold log_file_name, pad4, pad2 in H;
      cbn [dt_year dt_month dt_day dt_hour dt_minute dt_second String.append] in H.
    injection H as Ey1 Ey2 Ey3 Ey4 Emo1 Emo2 Eda1 Eda2 Eh1 Eh2 Emi1 Emi2 Es1 Es2.
    assert (Hyl : 0 <= y1 / 100 < 100 /\ 0 <= y2 / 100 < 100).
    { split; split; try apply Z.div_pos; try apply Z.div_lt_upper_bound; lia. }
    assert (Hyr : 0 <= y1 mod 100 < 100 /\ 0 <= y2 mod 100 < 100).
    { split; apply Z.mod_pos_bound; lia. }
    assert (Ehi : y1 / 100 = y2 / 100) by (apply pad2_digits_inj; tauto).
    assert (Elo : y1 mod 100 = y2 mod 100) by (apply pad2_digits_inj; tauto).
    assert (y1 = y2) by (rewrite (Z.div_mod y1 100), (Z.div_mod y2 100) by lia; lia).
    assert (mo1 = mo2) by (apply pad2_digits_inj; auto; lia).
    assert (da1 = da2) by (apply pad2_digits_inj; auto; lia).
    assert (h1 = h2) by (apply pad2_digits_inj; auto; lia).
    assert (mi1 = mi2) by (apply pad2_digits_inj; auto; lia).
    assert (s1 = s2) by (apply pad2_digits_inj; auto; lia).
    subst. reflexivity.
Qed.

Lemma log_file_path_inj_witness :
  dt_in_range (mkDateTime 2024 5 17 9 3 59) /\
  log_file_path "/var/log" (mkDateTime 2024 5 17 9 3 59) =
    "/var/log/tikv-client-20240517090359.log"%string /\
  String.length (log_file_path "/var/log" (mkDateTime 2024 5 17 9 3 59)) =
    (String.length "/var/log" + 31)%nat.
Proof.
  assert (Hd : dt_in_range (mkDateTime 2024 5 17 9 3 59)) by (unfold dt_in_range; cbn; lia).
  split; [exact Hd |]. split; [vm_compute; reflexivity |].
  exact (proj1 (log_file_path_inj "/var/log" _ _ Hd Hd)).
Defined.
